(** * xtd::strings — a shallow embedding of [xtd/strings.hpp]

    The class [xtd::strings] is a collection of static helpers over
    [std::basic_string<Char>].  A string is modelled as the list of its code
    units; the narrow [char] is [ascii], the code units of [char16_t] and
    [char32_t] are numbers.  [size_t] is a 64-bit unsigned integer, carried
    as [N] with its wrap-around written out. *)

From Stdlib Require Import Ascii String List NArith ZArith Bool Arith Lia.
Import ListNotations.

Set Implicit Arguments.

(** ** [size_t] *)

Module size_t.
Definition modulus : N := 2 ^ 64.

(** [std::numeric_limits<size_t>::max()], which is also [npos]. *)
Definition max : N := modulus - 1.

(** Unsigned subtraction, modulo [2^64]. *)
Definition sub (a b : N) : N := ((a mod modulus) + modulus - (b mod modulus)) mod modulus.

End size_t.

(** The size of a string or of a vector is below [2^64]; it is read as the
    number it is. *)
Definition size {A : Type} (l : list A) : N := N.of_nat (List.length l).

(** ** The execution environment

    [std::locale()] copies the global locale; [std::tolower(c, lc)] and
    [std::toupper(c, lc)] read its [ctype<char>] facet.  Whether plain
    [char] is signed is implementation-defined. *)

Record environment := {
  tolower : ascii -> ascii;
  toupper : ascii -> ascii;
  char_is_signed : bool
}.

Definition in_range (lo hi c : ascii) : bool :=
  ((nat_of_ascii lo <=? nat_of_ascii c) && (nat_of_ascii c <=? nat_of_ascii hi))%nat.

(** The classic "C" locale, the global locale of a program that never
    calls [std::locale::global]. *)
Definition classic_tolower (c : ascii) : ascii :=
  if in_range "A" "Z" c then ascii_of_nat (nat_of_ascii c + 32) else c.

Definition classic_toupper (c : ascii) : ascii :=
  if in_range "a" "z" c then ascii_of_nat (nat_of_ascii c - 32) else c.

Definition classic (signed : bool) : environment :=
  {| tolower := classic_tolower; toupper := classic_toupper; char_is_signed := signed |}.

(** [std::string] and [std::vector<T>]. *)
Definition narrow : Type := list ascii.
Definition vector (T : Type) : Type := list T.

(** A narrow string literal. *)
Definition lit (s : string) : narrow := list_ascii_of_string s.

(** ** Primitives of [std::basic_string<Char>] *)

Section BasicString.
Context {Char : Type}.

(** [char_traits<Char>::to_int_type]: the unsigned value that
    [traits::eq] and [traits::lt] compare. *)
Variable to_int : Char -> N.

(** [traits::eq] *)
Definition traits_eq (x y : Char) : bool := (to_int x =? to_int y)%N.

(** [a.compare(b)]: the sign of the first difference, else of the
    difference of the lengths.  The standard fixes the sign only; the
    model returns -1, 0 or 1. *)
Fixpoint basic_compare (a b : list Char) : Z :=
  match a, b with
  | [], [] => 0
  | [], _ :: _ => -1
  | _ :: _, [] => 1
  | x :: a', y :: b' =>
      match (to_int x ?= to_int y)%N with
      | Lt => -1
      | Gt => 1
      | Eq => basic_compare a' b'
      end
  end%Z.

(** [value] matches the characters of [s] from its first one on. *)
Fixpoint match_at (s value : list Char) : bool :=
  match value, s with
  | [], _ => true
  | _ :: _, [] => false
  | v :: value', c :: s' => traits_eq c v && match_at s' value'
  end.

(** The lowest position at or after [pos] (the position of the first
    character of [s] in the whole string) where [value] matches. *)
Fixpoint find_from (pos : nat) (s value : list Char) : option nat :=
  if match_at s value then Some pos
  else match s with
       | [] => None
       | _ :: s' => find_from (S pos) s' value
       end.

(** The highest such position. *)
Fixpoint rfind_from (pos : nat) (s value : list Char) : option nat :=
  match s with
  | [] => if match_at s value then Some pos else None
  | _ :: s' =>
      match rfind_from (S pos) s' value with
      | Some p => Some p
      | None => if match_at s value then Some pos else None
      end
  end.

Definition position (r : option nat) : N :=
  match r with
  | Some p => N.of_nat p
  | None => size_t.max
  end.

(** [str.find(value)] and [str.rfind(value)]: a position, or [npos]. *)
Definition find (str value : list Char) : N := position (find_from 0 str value).
Definition rfind (str value : list Char) : N := position (rfind_from 0 str value).
End BasicString.

(** [str.substr(pos, n)]: the characters from [pos] on, [n] of them or as
    many as there are; [std::out_of_range], here [None], when [pos] is past
    [size()]. *)
Definition substr {Char : Type} (str : list Char) (pos n : N) : option (list Char) :=
  if (size str <? pos)%N then None
  else Some (firstn (N.to_nat (N.min n (size str - pos))) (skipn (N.to_nat pos) str)).

(** Modelled from the spec: the enumeration [string_split_options] of
    [string_split_options.hpp], which is not among the sources.  The spec's
    split policy has the two values keep-empty-entries and
    remove-empty-entries; [split] names them [none] and
    [remove_empty_entries]. *)
Inductive string_split_options := none | remove_empty_entries.

(** ** Case mapping *)

(** [static_cast<char>(c)] of a code unit [c <= 0xFF]: its low byte. *)
Definition to_char (c : N) : ascii := ascii_of_N (c mod 256).

(** The value of a [char]: negative from 128 on where [char] is signed. *)
Definition char_value (e : environment) (c : ascii) : Z :=
  let b := Z.of_N (N_of_ascii c) in
  if char_is_signed e && (128 <=? b)%Z then (b - 256)%Z else b.

(** [static_cast<charN_t>(c)] of a [char]: its value modulo [2^bits]. *)
Definition of_char (bits : N) (e : environment) (c : ascii) : N :=
  Z.to_N (char_value e c mod 2 ^ Z.of_N bits).

(** ** The arguments of [format]

    [convert_param] branches on the type of its argument at compile time.
    A type is modelled by its syntax, an argument by its type and the
    object it denotes. *)

Inductive cpp_type :=
| std_string
| std_wstring
| std_u16string
| std_u32string
| fundamental (name : string)
| pointer_to (t : cpp_type)
| const_qualified (t : cpp_type)
| volatile_qualified (t : cpp_type)
| lvalue_reference (t : cpp_type)
| rvalue_reference (t : cpp_type).

Definition remove_reference_t (t : cpp_type) : cpp_type :=
  match t with
  | lvalue_reference t' | rvalue_reference t' => t'
  | _ => t
  end.

Fixpoint remove_cv_t (t : cpp_type) : cpp_type :=
  match t with
  | const_qualified t' | volatile_qualified t' => remove_cv_t t'
  | _ => t
  end.

(** [std::is_same<t, std::string>::value] and its wide counterpart. *)
Definition is_std_string (t : cpp_type) : bool :=
  match t with std_string => true | _ => false end.

Definition is_std_wstring (t : cpp_type) : bool :=
  match t with std_wstring => true | _ => false end.

Inductive object :=
| narrow_chars (s : narrow)
| wide_chars (s : list N)
| number (z : Z)
| address (a : N).

Record argument := { arg_type : cpp_type; arg_object : object }.

(** What the low-level formatter receives: the pointer [arg.c_str()] to the
    character data of [arg], or [arg] itself. *)
Inductive parameter :=
| c_str (arg : argument)
| forward (arg : argument).

Module strings.

Section CaseLoop.
Context {Char : Type}.
Variable f : Char -> Char.

(** [for (c : str) result.push_back(f(c)); return result;] *)
Definition for_each_push_back (str : list Char) : list Char :=
  fold_left (fun result c => result ++ [f c]) str [].
End CaseLoop.

(** The template, at [Char = char]. *)
Definition to_lower (e : environment) (str : list ascii) : list ascii :=
  for_each_push_back (fun c => tolower e c) str.

Definition to_upper (e : environment) (str : list ascii) : list ascii :=
  for_each_push_back (fun c => toupper e c) str.

(** The overloads for [char16_t] and [char32_t]. *)
Definition to_lower_wide (bits : N) (e : environment) (str : list N) : list N :=
  for_each_push_back
    (fun c => if (c <=? 255)%N then of_char bits e (tolower e (to_char c)) else c) str.

Definition to_upper_wide (bits : N) (e : environment) (str : list N) : list N :=
  for_each_push_back
    (fun c => if (c <=? 255)%N then of_char bits e (toupper e (to_char c)) else c) str.

Definition to_lower_char16 := to_lower_wide 16.
Definition to_lower_char32 := to_lower_wide 32.
Definition to_upper_char16 := to_upper_wide 16.
Definition to_upper_char32 := to_upper_wide 32.

(** The templates over [Char].  [to_int] is the character's unsigned value
    and [to_lower] the overload of [strings::to_lower] that the call
    selects for [Char], in the environment of the call. *)
Section Templates.
Context {Char : Type}.
Variable to_int : Char -> N.
Variable to_lower : list Char -> list Char.

Definition compare (str_a str_b : list Char) (ignore_case : bool) : Z :=
  if ignore_case
  then basic_compare to_int (to_lower str_a) (to_lower str_b)
  else basic_compare to_int str_a str_b.

Definition contains (str value : list Char) : bool :=
  negb (find to_int str value =? size_t.max)%N.

Definition ends_width (str value : list Char) (ignore_case : bool) : bool :=
  if ignore_case
  then (size_t.sub (rfind to_int (to_lower str) (to_lower value))
                   (size (to_lower value)) =? 0)%N
  else (size_t.sub (rfind to_int str value) (size value) =? 0)%N.

Definition starts_width (str value : list Char) (ignore_case : bool) : bool :=
  if ignore_case
  then (find to_int (to_lower str) (to_lower value) =? 0)%N
  else (find to_int str value =? 0)%N.
End Templates.

(** *** [split]

    The loop iterates with a [std::string::const_iterator], so [split]
    is the instance at [Char = char]. *)

(** [std::string(p, pos, n)] for a [const char* p]: the characters of the
    C string at [p] (up to its first NUL) from [pos] on, [n] of them at
    most; [std::out_of_range] when [pos] is past the end.  [split] is
    [noexcept], so the exception ends the program: [None]. *)
Fixpoint c_str_chars (p : list ascii) : list ascii :=
  match p with
  | [] => []
  | c :: p' => if Ascii.eqb c zero then [] else c :: c_str_chars p'
  end.

Definition string_of_c_str (p : list ascii) (pos n : nat) : option (list ascii) :=
  let s := c_str_chars p in
  if (List.length s <? pos)%nat then None else Some (firstn n (skipn pos s)).

(** [{9, 10, 11, 12, 13, 32}] *)
Definition default_separators : vector ascii :=
  map ascii_of_nat [9; 10; 11; 12; 13; 32]%nat.

Definition is_remove_empty_entries (options : string_split_options) : bool :=
  match options with
  | remove_empty_entries => true
  | none => false
  end.

Section SplitLoop.
Variable str : narrow.
Variable split_char_separators : vector ascii.
Variable count : N.
Variable options : string_split_options.

(** [std::find(begin, end, c) != end] *)
Definition is_separator (c : ascii) : bool :=
  existsb (Ascii.eqb c) split_char_separators.

(** One run of the [for] loop from the iterator at index [i], where
    [rest] holds the characters from [i] on; [list] and [subString]
    are the loop's two variables.  The indices stay below
    [str.length()], so their arithmetic never wraps. *)
Fixpoint split_loop (i : nat) (rest : narrow)
         (list : vector narrow) (subString : narrow) : option (vector narrow) :=
  match rest with
  | [] => Some list
  | c :: rest' =>
      let is_sep := is_separator c in
      let subString := if is_sep then subString else subString ++ [c] in
      if ((i =? List.length str - 1)%nat || is_sep)
         && ((0 <? List.length subString)%nat
             || ((List.length subString =? 0)%nat
                 && negb (is_remove_empty_entries options)))
      then
        if (size list =? count - 1)%N
        then
          match string_of_c_str str
                  (i + (if is_sep then 1 else 0))
                  (List.length str - i + (if is_sep then 1 else 0)) with
          | Some tail => Some (list ++ [subString ++ tail])
          | None => None
          end
        else split_loop (S i) rest' (list ++ [subString]) []
      else split_loop (S i) rest' list subString
  end.
End SplitLoop.

(** The separators the loop looks for. *)
Definition effective_separators (separators : vector ascii) : vector ascii :=
  if (size separators =? 0)%N then default_separators else separators.

Definition split (str : narrow) (separators : vector ascii) (count : N)
           (options : string_split_options) : option (vector narrow) :=
  if (count =? 0)%N then Some []
  else if (count =? 1)%N then Some [str]
  else split_loop str (effective_separators separators) count options 0 str [] [].

(** The overloads without a count pass [numeric_limits<size_t>::max()],
    those without options pass [none]. *)
Definition split_all (str : narrow) (separators : vector ascii)
           (options : string_split_options) : option (vector narrow) :=
  split str separators size_t.max options.

(** *** [format] *)

Definition convert_param (arg : argument) : parameter :=
  let t := remove_cv_t (remove_reference_t (arg_type arg)) in
  if is_std_string t then c_str arg
  else if is_std_wstring t then c_str arg
  else forward arg.

Section Format.
Context {Char : Type}.

(** The formatter of [__format.hpp], which is not among the sources. *)
Variable __format : list Char -> list parameter -> list Char.

Definition format (fmt : list Char) (args : list argument) : list Char :=
  __format fmt (map convert_param args).
End Format.

(** *** The overloads

    The two-argument [compare] honours the case. *)
Definition compare_case_sensitive {Char : Type} (to_int : Char -> N)
           (str_a str_b : list Char) : Z :=
  basic_compare to_int str_a str_b.

(** [compare] of two substrings.  It is not [noexcept]: the exception of
    [substr] reaches the caller, and the model returns [None]. *)
Section Substrings.
Context {Char : Type}.
Variable to_int : Char -> N.
Variable to_lower : list Char -> list Char.

Definition compare_substrings (str_a : list Char) (index_a : N)
           (str_b : list Char) (index_b length : N) (ignore_case : bool) : option Z :=
  match substr str_a index_a length with
  | None => None
  | Some sa =>
      match substr str_b index_b length with
      | None => None
      | Some sb =>
          Some (if ignore_case
                then basic_compare to_int (to_lower sa) (to_lower sb)
                else basic_compare to_int sa sb)
      end
  end.
End Substrings.

(** [split(str)], [split(str, separators)] and [split(str, separators,
    count)]; [split(str, separators, options)] is [split_all]. *)
Definition split_white_space (str : narrow) : option (vector narrow) :=
  split str default_separators size_t.max none.

Definition split_at (str : narrow) (separators : vector ascii) : option (vector narrow) :=
  split str separators size_t.max none.

Definition split_count (str : narrow) (separators : vector ascii) (count : N)
  : option (vector narrow) :=
  split str separators count none.

(** The overloads for a [const char*] build a [std::string] from the C
    string first: its characters up to the first NUL. *)
Definition split_c_str (str : narrow) (separators : vector ascii) (count : N)
           (options : string_split_options) : option (vector narrow) :=
  split (c_str_chars str) separators count options.

Definition contains_c_str (str value : narrow) : bool :=
  contains N_of_ascii (c_str_chars str) (c_str_chars value).

Definition starts_width_c_str (e : environment) (str value : narrow)
           (ignore_case : bool) : bool :=
  starts_width N_of_ascii (to_lower e) (c_str_chars str) (c_str_chars value) ignore_case.

(** *** [concat]

    The arguments go through [operator<<] into a [std::stringstream]; the
    model has the arguments whose insertion is their characters: a
    [std::string], a C string and a [char]. *)
Inductive streamed :=
| a_string (s : narrow)
| a_c_string (p : narrow)
| a_char (c : ascii).

(** [ss << arg], on the characters held by [ss]. *)
Definition insert (ss : narrow) (arg : streamed) : narrow :=
  match arg with
  | a_string s => ss ++ s
  | a_c_string p => ss ++ c_str_chars p
  | a_char c => ss ++ [c]
  end.

Definition concat (args : list streamed) : narrow :=
  fold_left insert args [].

End strings.

(** ** Vocabulary of the statements *)

(** [value] is a suffix of [str]. *)
Definition is_suffix {Char : Type} (value str : list Char) : Prop :=
  exists front, str = front ++ value.

(** No character of the token is one of the separators. *)
Definition separator_free (separators : vector ascii) (token : narrow) : Prop :=
  forall c, In c token -> strings.is_separator separators c = false.

(** [r] is [s] with every code unit up to 255 sent through [table] and back
    to the wide type, and every code unit above 255 kept, place by place. *)
Definition maps_low_bytes_only (bits : N) (e : environment) (table : ascii -> ascii)
           (s r : list N) : Prop :=
  List.length r = List.length s
  /\ (forall i c, nth_error s i = Some c -> (255 < c)%N -> nth_error r i = Some c)
  /\ (forall i c, nth_error s i = Some c -> (c <= 255)%N ->
                  nth_error r i = Some (of_char bits e (table (to_char c)))).

(** The separators of a text among all its characters but the last. *)
Definition separators_before_last (separators : vector ascii) (str : narrow) : nat :=
  List.length (filter (strings.is_separator separators) (removelast str)).

(** The text without its separators. *)
Definition without_separators (separators : vector ascii) (str : narrow) : narrow :=
  filter (fun c => negb (strings.is_separator separators c)) str.

(** * Properties *)

(** ** Case mapping *)

Lemma for_each_push_back_from {Char : Type} (f : Char -> Char) (str acc : list Char) :
  fold_left (fun result c => result ++ [f c]) str acc = acc ++ map f str.
Proof.
  revert acc; induction str as [|c str IH]; intros acc; simpl.
  - now rewrite app_nil_r.
  - rewrite IH, <- app_assoc. reflexivity.
Qed.

Lemma for_each_push_back_map {Char : Type} (f : Char -> Char) (str : list Char) :
  strings.for_each_push_back f str = map f str.
Proof. unfold strings.for_each_push_back. now rewrite for_each_push_back_from. Qed.

Lemma map_low_bytes (bits : N) (e : environment) (table : ascii -> ascii) (s : list N) :
  maps_low_bytes_only bits e table s
    (map (fun c => if (c <=? 255)%N then of_char bits e (table (to_char c)) else c) s).
Proof.
  repeat split.
  - apply length_map.
  - intros i c Hi Hc. rewrite nth_error_map, Hi. simpl.
    destruct (N.leb_spec c 255); [lia | reflexivity].
  - intros i c Hi Hc. rewrite nth_error_map, Hi. simpl.
    destruct (N.leb_spec c 255); [reflexivity | lia].
Qed.

(** C8: on 16-bit and 32-bit strings, [to_lower] and [to_upper] keep the
    length and every code unit above 255 in its place; the code units up to
    255, and only they, go through the locale's single-byte table. *)
Theorem wide_case_mapping_keeps_code_units_above_255 (e : environment) (s : list N) :
  maps_low_bytes_only 16 e (tolower e) s (strings.to_lower_char16 e s)
  /\ maps_low_bytes_only 32 e (tolower e) s (strings.to_lower_char32 e s)
  /\ maps_low_bytes_only 16 e (toupper e) s (strings.to_upper_char16 e s)
  /\ maps_low_bytes_only 32 e (toupper e) s (strings.to_upper_char32 e s).
Proof.
  unfold strings.to_lower_char16, strings.to_lower_char32,
    strings.to_upper_char16, strings.to_upper_char32,
    strings.to_lower_wide, strings.to_upper_wide.
  rewrite !for_each_push_back_map.
  repeat split; apply map_low_bytes.
Qed.

(** ** Comparison *)

Lemma basic_compare_antisym {Char : Type} (to_int : Char -> N) (a b : list Char) :
  basic_compare to_int a b = (- basic_compare to_int b a)%Z.
Proof.
  revert b; induction a as [|x a IH]; intros [|y b]; simpl; try reflexivity.
  rewrite (N.compare_antisym (to_int x) (to_int y)).
  destruct (to_int x ?= to_int y)%N; simpl; auto.
Qed.

(** C9: the case-insensitive comparisons of [a] with [b] and of [b] with
    [a] have opposite signs, and are zero together. *)
Theorem compare_ignore_case_antisymmetric
        {Char : Type} (to_int : Char -> N) (to_lower : list Char -> list Char)
        (a b : list Char) :
  Z.sgn (strings.compare to_int to_lower a b true)
  = (- Z.sgn (strings.compare to_int to_lower b a true))%Z
  /\ (strings.compare to_int to_lower a b true = 0%Z
      <-> strings.compare to_int to_lower b a true = 0%Z).
Proof.
  unfold strings.compare.
  rewrite (basic_compare_antisym to_int (to_lower a) (to_lower b)).
  split; [apply Z.sgn_opp | lia].
Qed.

(** ** Searching *)

(** C10: the empty string is contained in every string, the empty one
    included. *)
Theorem contains_empty_value {Char : Type} (to_int : Char -> N) (str : list Char) :
  strings.contains to_int str [] = true.
Proof.
  unfold strings.contains, find.
  destruct str; reflexivity.
Qed.

Lemma rfind_from_range {Char : Type} (to_int : Char -> N) (s value : list Char) :
  forall pos p, rfind_from to_int pos s value = Some p ->
                (pos <= p <= pos + List.length s)%nat.
Proof.
  induction s as [|c s IH]; intros pos p; cbn [rfind_from List.length].
  - destruct (match_at to_int [] value); [|discriminate].
    intros [= <-]. lia.
  - destruct (rfind_from to_int (S pos) s value) as [q|] eqn:E.
    + intros [= <-]. apply IH in E. lia.
    + destruct (match_at to_int (c :: s) value); [|discriminate].
      intros [= <-]. lia.
Qed.

Lemma size_t_sub_zero (a b : N) :
  (a < size_t.modulus)%N -> (b < size_t.modulus)%N ->
  (size_t.sub a b = 0)%N <-> a = b.
Proof.
  unfold size_t.sub, size_t.modulus. intros Ha Hb.
  rewrite (N.mod_small a), (N.mod_small b) by assumption.
  split.
  - intros H. destruct (N.lt_trichotomy a b) as [Hlt | [Heq | Hgt]]; [ | assumption | ].
    + rewrite N.mod_small in H by lia. lia.
    + replace (a + 2 ^ 64 - b)%N with ((a - b) + 1 * 2 ^ 64)%N in H by lia.
      rewrite N.Div0.mod_add, N.mod_small in H by lia. lia.
  - intros ->. replace (b + 2 ^ 64 - b)%N with (2 ^ 64)%N by lia.
    apply N.Div0.mod_same.
Qed.

(** What the subtraction in [ends_width] decides: whether the last place
    where [value] occurs in [str] is the index [value.size()], wherever the
    end of [str] lies. *)
Lemma ends_width_last_occurrence
      {Char : Type} (to_int : Char -> N) (to_lower : list Char -> list Char)
      (str value : list Char) :
  (size str < size_t.max)%N -> (size value < size_t.max)%N ->
  strings.ends_width to_int to_lower str value false = true
  <-> rfind_from to_int 0 str value = Some (List.length value).
Proof.
  unfold strings.ends_width, rfind, size, size_t.max, size_t.modulus.
  intros Hs Hv. rewrite N.eqb_eq.
  destruct (rfind_from to_int 0 str value) as [p|] eqn:E; simpl.
  - apply rfind_from_range in E.
    rewrite size_t_sub_zero by (unfold size_t.modulus; lia).
    split; [intros H; f_equal; lia | intros [= ->]; reflexivity].
  - rewrite size_t_sub_zero by (unfold size_t.max, size_t.modulus; lia).
    unfold size_t.max, size_t.modulus. split; [lia | discriminate].
Qed.

Lemma not_suffix_by_last {Char : Type} (x y : Char) (front s : list Char) :
  x <> y -> s ++ [y] <> front ++ [x].
Proof.
  intros Hxy H. apply (f_equal (@rev Char)) in H.
  rewrite !rev_app_distr in H. simpl in H. congruence.
Qed.

(** C3: [ends_width] is not the suffix test.  It answers false for the
    suffix "c" of "abc", and true for "a", which is no suffix of "xabc";
    the same with the case ignored. *)
Theorem ends_width_is_not_the_suffix_test (signed ignore_case : bool) :
  let ends_width := strings.ends_width N_of_ascii (strings.to_lower (classic signed)) in
  (is_suffix (lit "c") (lit "abc")
   /\ ends_width (lit "abc") (lit "c") ignore_case = false)
  /\ (~ is_suffix (lit "a") (lit "xabc")
      /\ ends_width (lit "xabc") (lit "a") ignore_case = true).
Proof.
  repeat split.
  - exists (lit "ab"). reflexivity.
  - destruct ignore_case; vm_compute; reflexivity.
  - intros [front H]. revert H.
    apply (@not_suffix_by_last ascii "a"%char "c"%char front (lit "xab")).
    discriminate.
  - destruct ignore_case; vm_compute; reflexivity.
Qed.

(** ** Splitting *)

Section SplitLoopFacts.
Variable str : narrow.
Variable separators : vector ascii.
Variable count : N.
Variable options : string_split_options.

Let loop := strings.split_loop str separators count options.

Lemma separator_free_nil : separator_free separators [].
Proof. intros c []. Qed.

Lemma separator_free_push_back (subString : narrow) (c : ascii) :
  separator_free separators subString ->
  strings.is_separator separators c = false ->
  separator_free separators (subString ++ [c]).
Proof.
  intros Hsub Hc x Hx. apply in_app_or in Hx as [Hx | [<- | []]]; auto.
Qed.

(** The buffer after the loop has read [c]. *)
Lemma separator_free_pending (subString : narrow) (c : ascii) :
  separator_free separators subString ->
  separator_free separators
    (if strings.is_separator separators c then subString else subString ++ [c]).
Proof.
  intros Hsub. destruct (strings.is_separator separators c) eqn:Hc; auto.
  now apply separator_free_push_back.
Qed.

(** The loop pushes separator-free tokens, except for the one it pushes
    when [list] already holds [count - 1] tokens. *)
Lemma split_loop_separator_free (rest : narrow) :
  forall (i : nat) (list : vector narrow) (subString : narrow) (l : vector narrow),
    (1 <= count)%N ->
    Forall (separator_free separators) list ->
    separator_free separators subString ->
    loop i rest list subString = Some l ->
    forall j t, nth_error l j = Some t -> N.of_nat (S j) <> count ->
                separator_free separators t.
Proof.
  subst loop.
  induction rest as [|c rest' IH]; intros i list subString l Hcount Hlist Hsub; simpl.
  - intros [= <-] j t Hj _.
    rewrite Forall_forall in Hlist. eapply Hlist, nth_error_In, Hj.
  - pose proof (separator_free_pending c Hsub) as Hpending.
    destruct (_ && _).
    + destruct (N.eqb_spec (size list) (count - 1)) as [Hfull | _].
      * destruct (strings.string_of_c_str _ _ _) as [tail|]; [|discriminate].
        intros [= <-] j t Hj Hcj.
        destruct (Nat.lt_ge_cases j (List.length list)) as [Hlt | Hge].
        -- rewrite nth_error_app1 in Hj by assumption.
           rewrite Forall_forall in Hlist. eapply Hlist, nth_error_In, Hj.
        -- assert (j = List.length list) as ->.
           { match type of Hj with
             | nth_error ?L _ = _ =>
                 assert (j < List.length L)%nat as Hj'
                   by (apply nth_error_Some; rewrite Hj; discriminate)
             end.
             rewrite length_app in Hj'. simpl in Hj'. lia. }
           unfold size in Hfull. lia.
      * apply IH; auto using separator_free_nil.
        apply Forall_app. split; auto.
    + apply IH; auto.
Qed.

(** A text without separators is read to its end and pushed whole, when
    the count leaves room for one token. *)
Lemma split_loop_single_token (rest : narrow) :
  forall subString : narrow,
    str = subString ++ rest ->
    rest <> [] ->
    separator_free separators rest ->
    (0 <> count - 1)%N ->
    loop (List.length subString) rest [] subString = Some [str].
Proof.
  subst loop.
  induction rest as [|c rest' IH]; intros subString Hstr Hrest Hfree Hcount;
    [congruence|].
  cbn [strings.split_loop].
  rewrite (Hfree c (or_introl eq_refl)).
  assert (List.length str = List.length subString + S (List.length rest'))%nat as Hlen
      by (rewrite Hstr, length_app; reflexivity).
  destruct rest' as [|c' rest''].
  - replace (List.length subString =? List.length str - 1)%nat with true
      by (symmetry; apply Nat.eqb_eq; simpl in Hlen; lia).
    replace (0 <? List.length (subString ++ [c]))%nat with true
      by (symmetry; apply Nat.ltb_lt; rewrite length_app; simpl; lia).
    cbn [orb andb].
    destruct (N.eqb_spec (size (@nil narrow)) (count - 1)) as [Hfull | _];
      [unfold size in Hfull; simpl in Hfull; lia|].
    simpl. now rewrite Hstr.
  - replace (List.length subString =? List.length str - 1)%nat with false
      by (symmetry; apply Nat.eqb_neq; simpl in Hlen; lia).
    cbn [orb andb].
    replace (S (List.length subString)) with (List.length (subString ++ [c]))
      by (rewrite length_app; simpl; lia).
    apply IH; auto.
    + now rewrite <- app_assoc.
    + discriminate.
    + intros x Hx. apply Hfree. now right.
Qed.
(** The tokens already pushed stay in front. *)
Lemma split_loop_extends (rest : narrow) :
  forall (i : nat) (list : vector narrow) (subString : narrow) (l : vector narrow),
    loop i rest list subString = Some l -> exists more, l = list ++ more.
Proof.
  subst loop.
  induction rest as [|c rest' IH]; intros i list subString l; simpl.
  - intros [= <-]. exists []. now rewrite app_nil_r.
  - destruct (_ && _).
    + destruct (size list =? count - 1)%N.
      * destruct (strings.string_of_c_str _ _ _); [|discriminate].
        intros [= <-]. eauto.
      * intros H. apply IH in H as [more ->]. rewrite <- app_assoc. eauto.
    + apply IH.
Qed.

(** The loop stops at [count] tokens. *)
Lemma split_loop_size (rest : narrow) :
  forall (i : nat) (list : vector narrow) (subString : narrow) (l : vector narrow),
    (1 <= count)%N ->
    (size list <= count - 1)%N ->
    loop i rest list subString = Some l ->
    (size l <= count)%N.
Proof.
  subst loop.
  induction rest as [|c rest' IH]; intros i list subString l Hcount Hlist; simpl.
  - intros [= <-]. lia.
  - destruct (_ && _).
    + destruct (N.eqb_spec (size list) (count - 1)) as [Hfull | Hroom].
      * destruct (strings.string_of_c_str _ _ _); [|discriminate].
        intros [= <-]. unfold size in *. rewrite length_app. simpl. lia.
      * apply IH; auto. unfold size in *. rewrite length_app. simpl. lia.
    + apply IH; auto.
Qed.

(** Under [remove_empty_entries] the loop pushes no empty token. *)
Lemma split_loop_nonempty (rest : narrow) :
  forall (i : nat) (list : vector narrow) (subString : narrow) (l : vector narrow),
    options = remove_empty_entries ->
    Forall (fun t => t <> []) list ->
    loop i rest list subString = Some l ->
    Forall (fun t => t <> []) l.
Proof.
  subst loop.
  induction rest as [|c rest' IH]; intros i list subString l Hopt Hlist; simpl.
  - now intros [= <-].
  - rewrite Hopt at 1. cbn [strings.is_remove_empty_entries negb].
    rewrite andb_false_r, orb_false_r.
    set (pending := if strings.is_separator separators c
                    then subString else subString ++ [c]).
    destruct (_ || _); cbn [andb]; [|now apply IH].
    destruct (Nat.ltb_spec 0 (List.length pending)) as [Hpending | _];
      [|now apply IH].
    assert (pending <> []) as Hne by (destruct pending; [simpl in *; lia | discriminate]).
    destruct (size list =? count - 1)%N.
    + destruct (strings.string_of_c_str _ _ _) as [tail|]; [|discriminate].
      intros [= <-]. apply Forall_app. split; auto.
      constructor; auto. destruct pending; [congruence | discriminate].
    + apply IH; auto. apply Forall_app. split; auto.
Qed.

Lemma c_str_chars_without_nul (p : narrow) :
  ~ In zero p -> strings.c_str_chars p = p.
Proof.
  induction p as [|c p IH]; simpl; intros H; [reflexivity|].
  destruct (Ascii.eqb_spec c zero) as [-> | _]; [tauto|].
  f_equal. apply IH. tauto.
Qed.

Lemma string_of_c_str_without_nul (pos n : nat) :
  ~ In zero str -> (pos <= List.length str)%nat ->
  strings.string_of_c_str str pos n = Some (firstn n (skipn pos str)).
Proof.
  intros Hnul Hpos. unfold strings.string_of_c_str.
  rewrite c_str_chars_without_nul by assumption.
  destruct (Nat.ltb_spec (List.length str) pos); [lia | reflexivity].
Qed.

(** On a text without NUL the loop runs to a result. *)
Lemma split_loop_returns (rest : narrow) :
  forall (i : nat) (list : vector narrow) (subString : narrow),
    ~ In zero str ->
    (i + List.length rest = List.length str)%nat ->
    exists l, loop i rest list subString = Some l.
Proof.
  subst loop.
  induction rest as [|c rest' IH]; intros i list subString Hnul Hi; simpl.
  - eauto.
  - simpl in Hi.
    destruct (_ && _); [|apply IH; auto; lia].
    destruct (size list =? count - 1)%N; [|apply IH; auto; lia].
    rewrite string_of_c_str_without_nul; eauto.
    destruct (strings.is_separator separators c); lia.
Qed.
End SplitLoopFacts.

(** Two runs of the loop that differ in the count only: the run with the
    smaller count [k] pushes the same tokens as the other one until it has
    [k - 1] of them, and then one more. *)
Section SplitLoopCounts.
Variable str : narrow.
Variable separators : vector ascii.
Variable options : string_split_options.
Variables k k' : N.

Lemma split_loop_smaller_count (rest : narrow) :
  forall (i : nat) (list : vector narrow) (subString : narrow) (l' : vector narrow),
    ~ In zero str ->
    (i + List.length rest = List.length str)%nat ->
    (1 <= k <= k')%N ->
    (size list <= k - 1)%N ->
    strings.split_loop str separators k' options i rest list subString = Some l' ->
    (k <= size l')%N ->
    exists final,
      strings.split_loop str separators k options i rest list subString
      = Some (firstn (N.to_nat (k - 1)) l' ++ [final]).
Proof.
  induction rest as [|c rest' IH];
    intros i list subString l' Hnul Hi Hk Hlist Hrun Hl'.
  - simpl in Hrun. injection Hrun as <-. lia.
  - pose proof (split_loop_extends _ _ _ _ _ _ _ _ Hrun) as [more ->].
    revert Hrun. simpl in Hi. simpl.
    destruct (_ && _); [|intros Hrun; eapply IH; eauto; lia].
    destruct (N.eqb_spec (size list) (k - 1)) as [Hfull | Hroom].
    + intros _. rewrite string_of_c_str_without_nul
        by (auto; destruct (strings.is_separator separators c); lia).
      replace (N.to_nat (k - 1)) with (List.length list + 0)%nat
        by (unfold size in Hfull; lia).
      rewrite firstn_app_2. simpl. rewrite app_nil_r. eauto.
    + destruct (N.eqb_spec (size list) (k' - 1)) as [Hfull' | _]; [lia|].
      intros Hrun. eapply IH; eauto; [lia|].
      unfold size in *. rewrite length_app. simpl. lia.
Qed.
End SplitLoopCounts.

(** Every token of a split is free of the separators the loop looked for,
    except for the [count]-th one. *)
Lemma split_token_separator_free
      (str : narrow) (separators : vector ascii) (count : N)
      (options : string_split_options) (l : vector narrow) (j : nat) (t : narrow) :
  strings.split str separators count options = Some l ->
  nth_error l j = Some t ->
  N.of_nat (S j) <> count ->
  separator_free (strings.effective_separators separators) t.
Proof.
  unfold strings.split.
  destruct (N.eqb_spec count 0) as [-> | H0].
  { intros [= <-]. destruct j; discriminate. }
  destruct (N.eqb_spec count 1) as [-> | H1].
  { intros [= <-]. destruct j as [|[|j]]; simpl; [lia | discriminate..]. }
  intros Hl. eapply split_loop_separator_free; eauto.
  - lia.
  - apply separator_free_nil.
Qed.

(** A non-empty text without separators splits into itself, whenever the
    count asks for two tokens or more. *)
Lemma split_separator_free_text
      (str : narrow) (separators : vector ascii) (count : N)
      (options : string_split_options) :
  str <> [] ->
  separator_free (strings.effective_separators separators) str ->
  (1 < count)%N ->
  strings.split str separators count options = Some [str].
Proof.
  intros Hstr Hfree Hcount. unfold strings.split.
  destruct (N.eqb_spec count 0); [lia|].
  destruct (N.eqb_spec count 1); [lia|].
  apply (@split_loop_single_token str (strings.effective_separators separators)
           count options str []); auto.
  lia.
Qed.

(** C6: no separator occurs in a token of a split, save in the token that
    fills the count: with ordinal [count], it is the truncated last token
    (and the whole text when the count is one). *)
Theorem split_tokens_hold_no_separator
        (str : narrow) (separators : vector ascii) (count : N)
        (options : string_split_options) (l : vector narrow) (j : nat) (t : narrow) (c : ascii) :
  strings.split str separators count options = Some l ->
  nth_error l j = Some t ->
  N.of_nat (S j) <> count ->
  In c t ->
  strings.is_separator (strings.effective_separators separators) c = false.
Proof.
  intros Hl Hj Hcj Hc.
  exact (@split_token_separator_free str separators count options l j t Hl Hj Hcj c Hc).
Qed.

Lemma split_tokens_hold_no_separator_witness :
  strings.is_separator (strings.effective_separators (lit "-")) "b" = false.
Proof.
  apply (@split_tokens_hold_no_separator
           (lit "a-b-c-d") (lit "-") 3 none
           [lit "a"; lit "b"; lit "cd"] 1 (lit "b") "b"%char).
  - vm_compute. reflexivity.
  - reflexivity.
  - vm_compute. discriminate.
  - simpl. auto.
Defined.

(** C7, amended: a non-empty token of a split, other than the one that
    fills the count, splits into itself under the same separators and
    options and no bound on the count. *)
Theorem resplit_of_closed_token
        (str : narrow) (separators : vector ascii) (count : N)
        (options : string_split_options) (l : vector narrow) (j : nat) (t : narrow) :
  strings.split str separators count options = Some l ->
  nth_error l j = Some t ->
  N.of_nat (S j) <> count ->
  t <> [] ->
  strings.split t separators size_t.max options = Some [t].
Proof.
  intros Hl Hj Hcj Ht.
  apply split_separator_free_text; auto.
  - exact (@split_token_separator_free str separators count options l j t Hl Hj Hcj).
  - reflexivity.
Qed.

Lemma resplit_of_closed_token_witness :
  strings.split (lit "b") (lit "-") size_t.max none = Some [lit "b"].
Proof.
  apply (@resplit_of_closed_token
           (lit "a-b-c-d") (lit "-") 3 none [lit "a"; lit "b"; lit "cd"] 1 (lit "b")).
  - vm_compute. reflexivity.
  - reflexivity.
  - vm_compute. discriminate.
  - discriminate.
Defined.

(** C7 as stated fails: with a count of one the text is returned whole, and
    it splits further. *)
Lemma resplit_of_whole_text_splits_further :
  strings.split (lit "a-b") (lit "-") 1 none = Some [lit "a-b"]
  /\ In (lit "a-b") [lit "a-b"]
  /\ strings.split (lit "a-b") (lit "-") size_t.max none = Some [lit "a"; lit "b"]
  /\ strings.split (lit "a-b") (lit "-") size_t.max none <> Some [lit "a-b"].
Proof.
  repeat split; try (vm_compute; reflexivity).
  - left. reflexivity.
  - vm_compute. discriminate.
Qed.

(** C4 as stated fails: the first token is "a", not the empty string, and
    the result has four tokens. *)
Lemma split_scenario_is_not_the_five_tokens :
  strings.split (lit "a-_aa-_") (lit "-_") size_t.max none
  <> Some [lit ""; lit ""; lit "aa"; lit ""; lit ""].
Proof. vm_compute. discriminate. Qed.

(** C4, amended: the split of "a-_aa-_" at '-' and '_', with no bound on
    the count and empty entries kept, begins with the four tokens that the
    four separators close: "a", "", "aa", "". *)
Theorem split_scenario_tokens :
  exists final : vector narrow,
    strings.split (lit "a-_aa-_") (lit "-_") size_t.max none
    = Some ([lit "a"; lit ""; lit "aa"; lit ""] ++ final).
Proof. exists []. vm_compute. reflexivity. Qed.

(** C1: "a-b-c" has three tokens; cut at two, the last token is "bc", without
    the delimiter that ended "b", and the tokens no longer make up the
    text. *)
Theorem split_truncation_loses_the_delimiter :
  strings.split (lit "a-b-c") (lit "-") size_t.max none
  = Some [lit "a"; lit "b"; lit "c"]
  /\ strings.split (lit "a-b-c") (lit "-") 2 none = Some [lit "a"; lit "bc"]
  /\ lit "a" ++ lit "-" ++ lit "bc" <> lit "a-b-c".
Proof.
  repeat split; try (vm_compute; reflexivity).
  vm_compute. discriminate.
Qed.

(** C2: at the end of the input an empty pending buffer is not closed: no
    empty token follows the final separator of "a-", and the empty text has
    no token at all. *)
Theorem split_end_of_input_closes_no_empty_token :
  strings.split (lit "a-") (lit "-") size_t.max none = Some [lit "a"]
  /\ strings.split (lit "") (lit "-") size_t.max none = Some [].
Proof. split; vm_compute; reflexivity. Qed.

(** ** Formatting *)

(** C5: [format] hands every argument to the formatter through
    [convert_param], which turns an argument whose type is [std::string] or
    [std::wstring] (references and cv-qualifiers aside) into the pointer to
    its character data, and leaves an argument of any other type as it
    is. *)
Theorem convert_param_reduces_strings_only
        {Char : Type} (__format : list Char -> list parameter -> list Char)
        (fmt : list Char) (args : list argument) (arg : argument) :
  let t := remove_cv_t (remove_reference_t (arg_type arg)) in
  (t = std_string \/ t = std_wstring -> strings.convert_param arg = c_str arg)
  /\ (t <> std_string -> t <> std_wstring -> strings.convert_param arg = forward arg)
  /\ strings.format __format fmt args = __format fmt (map strings.convert_param args).
Proof.
  unfold strings.convert_param, strings.format. cbv zeta.
  destruct (remove_cv_t (remove_reference_t (arg_type arg))); simpl;
    repeat split; intros; try reflexivity; try congruence;
    match goal with H : _ \/ _ |- _ => destruct H; discriminate end.
Qed.

Lemma convert_param_reduces_strings_only_witness :
  let s := {| arg_type := lvalue_reference (const_qualified std_string);
              arg_object := narrow_chars (lit "x") |} in
  let p := {| arg_type := pointer_to (const_qualified (fundamental "char"));
              arg_object := address 4096 |} in
  strings.convert_param s = c_str s /\ strings.convert_param p = forward p.
Proof.
  intros s p. split.
  - apply (convert_param_reduces_strings_only (fun (f : narrow) _ => f) [] [] s).
    left. reflexivity.
  - apply (convert_param_reduces_strings_only (fun (f : narrow) _ => f) [] [] p);
      discriminate.
Defined.

(** ** Further properties of [split] *)

(** X1: A count of zero gives no token, a count of one the text itself. *)
Theorem split_count_zero_and_one
        (str : narrow) (separators : vector ascii) (options : string_split_options) :
  strings.split str separators 0 options = Some []
  /\ strings.split str separators 1 options = Some [str].
Proof. split; reflexivity. Qed.

(** X2: A split never returns more tokens than the count. *)
Theorem split_size_at_most_count
        (str : narrow) (separators : vector ascii) (count : N)
        (options : string_split_options) (l : vector narrow) :
  strings.split str separators count options = Some l ->
  (size l <= count)%N.
Proof.
  unfold strings.split.
  destruct (N.eqb_spec count 0) as [-> | H0]; [intros [= <-]; reflexivity|].
  destruct (N.eqb_spec count 1) as [-> | H1]; [intros [= <-]; reflexivity|].
  apply split_loop_size; unfold size; simpl; lia.
Qed.

Lemma split_size_at_most_count_witness :
  (size [lit "a"; lit "bc"] <= 2)%N.
Proof.
  apply (@split_size_at_most_count (lit "a-b-c") (lit "-") 2 none).
  vm_compute. reflexivity.
Defined.

(** X3: A text without NUL always has a split. *)
Theorem split_returns_without_nul
        (str : narrow) (separators : vector ascii) (count : N)
        (options : string_split_options) :
  ~ In zero str ->
  exists l, strings.split str separators count options = Some l.
Proof.
  intros Hnul. unfold strings.split.
  destruct (count =? 0)%N; [eauto|].
  destruct (count =? 1)%N; [eauto|].
  apply split_loop_returns; auto.
Qed.

Lemma split_returns_without_nul_witness :
  exists l, strings.split (lit "a-b-c") (lit "-") 2 none = Some l.
Proof.
  apply (@split_returns_without_nul (lit "a-b-c") (lit "-") 2 none).
  vm_compute. intuition discriminate.
Defined.

(** X4: With a NUL in the text the truncation can read past the end of the C
    string, and the exception ends the program. *)
Theorem split_past_the_c_string :
  strings.split [zero; "-"; "-"]%char (lit "-") 2 none = None.
Proof. vm_compute. reflexivity. Qed.

(** X5: Under [remove_empty_entries] no token is empty, unless the count is
    one. *)
Theorem split_remove_empty_entries
        (str : narrow) (separators : vector ascii) (count : N) (l : vector narrow) :
  count <> 1%N ->
  strings.split str separators count remove_empty_entries = Some l ->
  Forall (fun t => t <> []) l.
Proof.
  intros H1. unfold strings.split.
  destruct (N.eqb_spec count 0); [now intros [= <-]|].
  destruct (N.eqb_spec count 1); [contradiction|].
  apply split_loop_nonempty; auto.
Qed.

Lemma split_remove_empty_entries_witness :
  Forall (fun t => t <> []) [lit "hello"; lit "world"].
Proof.
  apply (@split_remove_empty_entries (lit "  hello   world  ") [] size_t.max).
  - vm_compute. discriminate.
  - vm_compute. reflexivity.
Defined.

(** X6: When the split of a text without NUL under a count [k'] has [k] tokens
    or more, [2 <= k <= k'], the split under the count [k] has exactly [k]
    tokens, and its first [k - 1] tokens are those of the other split. *)
Theorem split_under_smaller_count
        (str : narrow) (separators : vector ascii) (k k' : N)
        (options : string_split_options) (l' : vector narrow) :
  ~ In zero str ->
  (2 <= k <= k')%N ->
  strings.split str separators k' options = Some l' ->
  (k <= size l')%N ->
  exists final,
    strings.split str separators k options
    = Some (firstn (N.to_nat (k - 1)) l' ++ [final])
    /\ size (firstn (N.to_nat (k - 1)) l' ++ [final]) = k.
Proof.
  intros Hnul Hk Hrun Hl'. revert Hrun. unfold strings.split.
  destruct (N.eqb_spec k 0); [lia|].
  destruct (N.eqb_spec k 1); [lia|].
  destruct (N.eqb_spec k' 0); [lia|].
  destruct (N.eqb_spec k' 1); [lia|].
  intros Hrun.
  destruct (@split_loop_smaller_count str (strings.effective_separators separators)
              options k k' str 0 [] [] l') as [final Hfinal]; auto;
    [lia | unfold size; simpl; lia |].
  exists final. split; [exact Hfinal|].
  unfold size in *. rewrite length_app, length_firstn. simpl. lia.
Qed.

Lemma split_under_smaller_count_witness :
  exists final,
    strings.split (lit "a-b-c") (lit "-") 2 none
    = Some (firstn (N.to_nat (2 - 1)) [lit "a"; lit "b"; lit "c"] ++ [final])
    /\ size (firstn (N.to_nat (2 - 1)) [lit "a"; lit "b"; lit "c"] ++ [final]) = 2%N.
Proof.
  apply (@split_under_smaller_count (lit "a-b-c") (lit "-") 2 size_t.max none).
  - vm_compute. intuition discriminate.
  - vm_compute. split; discriminate.
  - vm_compute. reflexivity.
  - vm_compute. discriminate.
Defined.

(** X7: A non-empty text that holds no separator is its own single token. *)
Theorem split_text_without_separator
        (str : narrow) (separators : vector ascii) (count : N)
        (options : string_split_options) :
  str <> [] ->
  (forall c, In c str ->
             strings.is_separator (strings.effective_separators separators) c = false) ->
  (1 < count)%N ->
  strings.split str separators count options = Some [str].
Proof. intros Hstr Hfree Hcount. now apply split_separator_free_text. Qed.

Lemma split_text_without_separator_witness :
  strings.split (lit "a") [] 5 none = Some [lit "a"].
Proof.
  apply (@split_text_without_separator (lit "a") [] 5 none).
  - discriminate.
  - intros c [<- | []]. vm_compute. reflexivity.
  - reflexivity.
Defined.

(** X8: The default separators take the place of an empty separator set: the
    words of a line, empty entries removed or kept. *)
Theorem split_at_white_space :
  strings.split (lit "  hello   world  ") [] size_t.max remove_empty_entries
  = Some [lit "hello"; lit "world"]
  /\ strings.split (lit "  hello   world  ") [] size_t.max none
     = Some [lit ""; lit ""; lit "hello"; lit ""; lit ""; lit "world"; lit ""].
Proof. split; vm_compute; reflexivity. Qed.

(** ** What the searches find *)

Section Occurrences.
Context {Char : Type}.
Variable to_int : Char -> N.
Hypothesis to_int_injective : forall x y, to_int x = to_int y -> x = y.

Lemma match_at_prefix (value s : list Char) :
  match_at to_int s value = true <-> exists back, s = value ++ back.
Proof.
  revert s; induction value as [|v value IH]; intros s.
  - destruct s; simpl; split; eauto.
  - destruct s as [|c s]; simpl.
    + split; [discriminate | intros [back H]; discriminate].
    + unfold traits_eq. rewrite andb_true_iff, N.eqb_eq, IH. split.
      * intros [Hc [back ->]]. apply to_int_injective in Hc as ->. eauto.
      * intros [back [= -> ->]]. eauto.
Qed.

Lemma find_from_found (value s : list Char) :
  forall pos p, find_from to_int pos s value = Some p ->
                (pos <= p <= pos + List.length s)%nat
                /\ match_at to_int (skipn (p - pos) s) value = true.
Proof.
  induction s as [|c s IH]; intros pos p; cbn [find_from].
  - destruct (match_at to_int [] value) eqn:E; [|discriminate].
    intros [= <-]. rewrite Nat.sub_diag. simpl. split; [lia | exact E].
  - destruct (match_at to_int (c :: s) value) eqn:E.
    + intros [= <-]. rewrite Nat.sub_diag. simpl. split; [lia | exact E].
    + intros H. apply IH in H as [Hp Hm]. split; [simpl; lia|].
      replace (p - pos)%nat with (S (p - S pos)) by lia. exact Hm.
Qed.

Lemma find_from_not_found (value s : list Char) :
  forall pos, find_from to_int pos s value = None ->
              forall n, match_at to_int (skipn n s) value = false.
Proof.
  induction s as [|c s IH]; intros pos; cbn [find_from].
  - destruct (match_at to_int [] value) eqn:E; [discriminate|].
    intros _ n. now rewrite skipn_nil.
  - destruct (match_at to_int (c :: s) value) eqn:E; [discriminate|].
    intros H [|n]; simpl; [exact E | eapply IH, H].
Qed.

Lemma occurrence_at (front value back : list Char) :
  match_at to_int (skipn (List.length front) (front ++ value ++ back)) value = true.
Proof.
  rewrite skipn_app, Nat.sub_diag, skipn_all. simpl.
  apply match_at_prefix. eauto.
Qed.

(** X9: [contains] is the test for an occurrence of [value] in [str]. *)
Theorem contains_occurrence (str value : list Char) :
  (size str < size_t.max)%N ->
  strings.contains to_int str value = true
  <-> exists front back, str = front ++ value ++ back.
Proof.
  intros Hsize. unfold strings.contains, find. rewrite negb_true_iff, N.eqb_neq.
  destruct (find_from to_int 0 str value) as [p|] eqn:E; simpl.
  - apply find_from_found in E as [Hp Hm]. rewrite Nat.sub_0_r in Hm.
    apply match_at_prefix in Hm as [back Hback].
    split; [intros _ | intros _; unfold size in Hsize; lia].
    exists (firstn p str), back.
    now rewrite <- Hback, firstn_skipn.
  - split; [congruence|].
    intros [front [back ->]].
    pose proof (find_from_not_found _ _ _ E (List.length front)) as H.
    rewrite occurrence_at in H. discriminate.
Qed.

(** X10: [starts_width], the case honoured, is the prefix test. *)
Theorem starts_width_prefix (to_lower : list Char -> list Char) (str value : list Char) :
  strings.starts_width to_int to_lower str value false = true
  <-> exists back, str = value ++ back.
Proof.
  unfold strings.starts_width, find. rewrite N.eqb_eq, <- match_at_prefix.
  destruct str as [|c str]; cbn [find_from].
  - destruct (match_at to_int [] value); simpl; [tauto|].
    split; [unfold size_t.max, size_t.modulus; simpl; discriminate | discriminate].
  - destruct (match_at to_int (c :: str) value) eqn:E; simpl; [tauto|].
    split; [|discriminate].
    destruct (find_from to_int 1 str value) as [p|] eqn:F; simpl.
    + apply find_from_found in F. lia.
    + unfold size_t.max, size_t.modulus. simpl. discriminate.
Qed.
End Occurrences.

Lemma N_of_ascii_injective (x y : ascii) : N_of_ascii x = N_of_ascii y -> x = y.
Proof.
  intros H. rewrite <- (ascii_N_embedding x), <- (ascii_N_embedding y). now f_equal.
Qed.

Lemma contains_occurrence_witness :
  strings.contains N_of_ascii (lit "hello") (lit "ll") = true
  <-> exists front back, lit "hello" = front ++ lit "ll" ++ back.
Proof.
  apply (contains_occurrence N_of_ascii N_of_ascii_injective).
  vm_compute. reflexivity.
Defined.

Lemma starts_width_prefix_witness :
  strings.starts_width N_of_ascii (strings.to_lower (classic true))
                       (lit "Hello") (lit "He") false = true
  <-> exists back, lit "Hello" = lit "He" ++ back.
Proof.
  apply (starts_width_prefix N_of_ascii N_of_ascii_injective).
Defined.

(** X11: Where it answers true, [ends_width] has found the last occurrence of
    [value] at the index [value.size()]: the test is the suffix test only
    for a [str] twice as long as [value]. *)
Theorem ends_width_true_at_index_size
        {Char : Type} (to_int : Char -> N) (to_lower : list Char -> list Char)
        (str value : list Char) :
  (size str < size_t.max)%N -> (size value < size_t.max)%N ->
  strings.ends_width to_int to_lower str value false = true
  <-> rfind_from to_int 0 str value = Some (List.length value).
Proof. apply ends_width_last_occurrence. Qed.

Lemma ends_width_true_at_index_size_witness :
  strings.ends_width N_of_ascii (strings.to_lower (classic true))
                     (lit "abab") (lit "ab") false = true
  <-> rfind_from N_of_ascii 0 (lit "abab") (lit "ab") = Some (List.length (lit "ab")).
Proof.
  apply (@ends_width_true_at_index_size ascii N_of_ascii).
  - vm_compute. reflexivity.
  - vm_compute. reflexivity.
Defined.

(** ** Case mapping of narrow strings *)

(** X12: [to_lower] and [to_upper] map the characters one by one. *)
Theorem narrow_case_mapping_is_pointwise (e : environment) (s : narrow) :
  strings.to_lower e s = map (tolower e) s
  /\ strings.to_upper e s = map (toupper e) s.
Proof.
  unfold strings.to_lower, strings.to_upper.
  now rewrite !for_each_push_back_map.
Qed.

(** X13: The scenarios of the case-insensitive variants, in the classic
    locale. *)
Theorem case_insensitive_scenarios (signed : bool) :
  let to_lower := strings.to_lower (classic signed) in
  strings.compare N_of_ascii to_lower (lit "ABC") (lit "abc") true = 0%Z
  /\ strings.compare N_of_ascii to_lower (lit "ABC") (lit "abc") false <> 0%Z
  /\ strings.starts_width N_of_ascii to_lower (lit "Hello") (lit "he") true = true
  /\ strings.starts_width N_of_ascii to_lower (lit "Hello") (lit "he") false = false.
Proof. repeat split; vm_compute; congruence. Qed.

(** ** The truncation at the last character *)

Lemma c_str_chars_prefix (p : narrow) :
  exists back, p = strings.c_str_chars p ++ back.
Proof.
  induction p as [|c p [back IH]]; simpl; [exists []; reflexivity|].
  destruct (Ascii.eqb c zero); [exists (c :: p); reflexivity|].
  exists back. simpl. now rewrite <- IH.
Qed.

Lemma in_skipn_c_str_chars (p : narrow) (n : nat) (x : ascii) :
  In x (skipn n (strings.c_str_chars p)) -> In x (skipn n p).
Proof.
  destruct (c_str_chars_prefix p) as [back H]. intros Hx.
  rewrite H, skipn_app. apply in_or_app. now left.
Qed.

Lemma in_string_of_c_str (p : narrow) (pos n : nat) (tail : narrow) (x : ascii) :
  strings.string_of_c_str p pos n = Some tail -> In x tail -> In x (skipn pos p).
Proof.
  unfold strings.string_of_c_str.
  destruct (_ <? _)%nat; [discriminate|]. intros [= <-] Hx.
  apply in_skipn_c_str_chars.
  rewrite <- (firstn_skipn n (skipn pos (strings.c_str_chars p))).
  apply in_or_app. now left.
Qed.

(** X14: When the count is reached at the last character of the text, the last
    token holds no separator either: what the truncation copies there is
    at most that character, and only if it is no separator. *)
Theorem split_loop_at_last_character
        (front : narrow) (c : ascii) (separators : vector ascii) (count : N)
        (options : string_split_options)
        (list : vector narrow) (subString : narrow) (l : vector narrow) :
  Forall (separator_free separators) list ->
  separator_free separators subString ->
  strings.split_loop (front ++ [c]) separators count options
                     (List.length front) [c] list subString = Some l ->
  Forall (separator_free separators) l.
Proof.
  intros Hlist Hsub. cbn [strings.split_loop].
  pose proof (separator_free_pending c Hsub) as Hpending.
  destruct (_ && _); [|now intros [= <-]].
  destruct (size list =? count - 1)%N.
  - destruct (strings.string_of_c_str _ _ _) as [tail|] eqn:E; [|discriminate].
    intros [= <-]. apply Forall_app. split; auto.
    constructor; auto.
    intros x Hx. apply in_app_or in Hx as [Hx | Hx]; auto.
    eapply in_string_of_c_str in Hx; [|exact E].
    destruct (strings.is_separator separators c) eqn:Hc.
    + rewrite skipn_all2 in Hx by (rewrite length_app; simpl; lia). destruct Hx.
    + rewrite Nat.add_0_r, skipn_app, Nat.sub_diag, skipn_all in Hx.
      destruct Hx as [<- | []]. exact Hc.
  - intros [= <-]. apply Forall_app. split; auto.
Qed.

Lemma split_loop_at_last_character_witness :
  Forall (separator_free (lit "-")) [lit "a"; lit "bb"].
Proof.
  apply (@split_loop_at_last_character (lit "a-") "b"%char (lit "-") 2 none
           [lit "a"] []).
  - constructor; [|constructor]. intros x [<- | []]. reflexivity.
  - intros x [].
  - vm_compute. reflexivity.
Defined.

(** ** What the tokens hold *)

Section SplitLoopContents.
Variable str : narrow.
Variable separators : vector ascii.
Variable count : N.
Variable options : string_split_options.

(** A run that stays below the count pushes the characters it reads that
    are no separators, in their order, and nothing else.  After the last
    character the pending buffer is empty. *)
Lemma split_loop_contents (rest : narrow) :
  forall (i : nat) (list : vector narrow) (subString : narrow) (l : vector narrow),
    (i + List.length rest = List.length str)%nat ->
    (rest = [] -> subString = []) ->
    strings.split_loop str separators count options i rest list subString = Some l ->
    (size l < count)%N ->
    List.concat l
    = List.concat list ++ subString ++ without_separators separators rest.
Proof.
  induction rest as [|c rest' IH]; intros i list subString l Hi Hend.
  - simpl. intros [= <-] _. rewrite (Hend eq_refl). now rewrite !app_nil_r.
  - cbn [strings.split_loop without_separators filter]. simpl in Hi.
    fold (without_separators separators rest').
    set (pending := if strings.is_separator separators c
                    then subString else subString ++ [c]).
    assert (subString ++ (if negb (strings.is_separator separators c)
                          then c :: without_separators separators rest'
                          else without_separators separators rest')
            = pending ++ without_separators separators rest') as Hstep.
    { subst pending. destruct (strings.is_separator separators c); simpl;
        [reflexivity | now rewrite <- app_assoc]. }
    rewrite Hstep.
    destruct ((i =? List.length str - 1)%nat || strings.is_separator separators c)
      eqn:Hclose; cbn [andb].
    + destruct ((0 <? List.length pending)%nat
                || (List.length pending =? 0)%nat
                   && negb (strings.is_remove_empty_entries options)) eqn:Hkeep.
      * destruct (N.eqb_spec (size list) (count - 1)) as [Hfull | _].
        -- destruct (strings.string_of_c_str _ _ _); [|discriminate].
           intros [= <-] Hl. unfold size in *. rewrite length_app in Hl.
           simpl in Hl. lia.
        -- intros Hrun Hl.
           rewrite (IH (S i) (list ++ [pending]) [] l) by (auto; lia).
           rewrite concat_app. simpl. now rewrite app_nil_r, <- app_assoc.
      * intros Hrun Hl. apply (IH (S i)); auto; [lia|].
        intros _. apply orb_false_iff in Hkeep as [Hempty _].
        apply Nat.ltb_ge in Hempty. destruct pending; [reflexivity | simpl in Hempty; lia].
    + intros Hrun Hl. apply (IH (S i)); auto; [lia|].
      intros ->. apply orb_false_iff in Hclose as [Hlast _].
      apply Nat.eqb_neq in Hlast. simpl in Hi. lia.
Qed.

Hypothesis keep_empty_entries : options = none.

(** With the empty entries kept, every separator closes a token, and so
    does the last character. *)
Lemma split_loop_closes (rest : narrow) :
  forall (i : nat) (list : vector narrow) (subString : narrow) (l : vector narrow),
    (i + List.length rest = List.length str)%nat ->
    strings.split_loop str separators count options i rest list subString = Some l ->
    (size l < count)%N ->
    List.length l
    = (List.length list + separators_before_last separators rest
       + match rest with [] => 0 | _ :: _ => 1 end)%nat.
Proof.
  unfold separators_before_last.
  induction rest as [|c rest' IH]; intros i list subString l Hi.
  - simpl. intros [= <-] _. lia.
  - cbn [strings.split_loop]. simpl in Hi.
    set (pending := if strings.is_separator separators c
                    then subString else subString ++ [c]).
    rewrite keep_empty_entries. cbn [strings.is_remove_empty_entries negb].
    rewrite andb_true_r.
    replace ((0 <? List.length pending)%nat || (List.length pending =? 0)%nat)
      with true by (destruct pending; reflexivity).
    rewrite andb_true_r.
    destruct rest' as [|c' rest''].
    + replace (i =? List.length str - 1)%nat with true
        by (symmetry; apply Nat.eqb_eq; simpl in Hi; lia).
      cbn [orb].
      destruct (N.eqb_spec (size list) (count - 1)) as [Hfull | _].
      * destruct (strings.string_of_c_str _ _ _); [|discriminate].
        intros [= <-] Hl. unfold size in *. rewrite length_app in Hl.
        simpl in Hl. lia.
      * simpl. intros [= <-] _. rewrite length_app. simpl. lia.
    + replace (i =? List.length str - 1)%nat with false
        by (symmetry; apply Nat.eqb_neq; simpl in Hi; lia).
      cbn [orb removelast filter].
      destruct (strings.is_separator separators c) eqn:Hc.
      * destruct (N.eqb_spec (size list) (count - 1)) as [Hfull | _].
        -- destruct (strings.string_of_c_str _ _ _); [|discriminate].
           intros [= <-] Hl. unfold size in *. rewrite length_app in Hl.
           simpl in Hl. lia.
        -- intros Hrun Hl. rewrite keep_empty_entries in IH.
           rewrite (IH (S i) (list ++ [pending]) [] l) by (auto; simpl in *; lia).
           rewrite length_app. simpl. lia.
      * intros Hrun Hl. rewrite keep_empty_entries in IH.
        rewrite (IH (S i) list pending l) by (auto; simpl in *; lia).
        simpl. lia.
Qed.
End SplitLoopContents.

(** X15: A split that stays below the count neither drops nor invents a
    character: its tokens, put end to end, are the text without its
    separators. *)
Theorem split_keeps_the_other_characters
        (str : narrow) (separators : vector ascii) (count : N)
        (options : string_split_options) (l : vector narrow) :
  strings.split str separators count options = Some l ->
  (size l < count)%N ->
  List.concat l = without_separators (strings.effective_separators separators) str.
Proof.
  unfold strings.split.
  destruct (N.eqb_spec count 0) as [-> | H0]; [intros _ H; lia|].
  destruct (N.eqb_spec count 1) as [-> | H1].
  { intros [= <-] H. unfold size in H. simpl in H. lia. }
  intros Hrun Hl.
  now rewrite (@split_loop_contents str (strings.effective_separators separators)
                 count options str 0 [] [] l).
Qed.

Lemma split_keeps_the_other_characters_witness :
  List.concat [lit "a"; lit ""; lit "aa"; lit ""]
  = without_separators (strings.effective_separators (lit "-_")) (lit "a-_aa-_").
Proof.
  apply (@split_keeps_the_other_characters (lit "a-_aa-_") (lit "-_") size_t.max none).
  - vm_compute. reflexivity.
  - vm_compute. reflexivity.
Defined.

(** X16: With the empty entries kept, a split that stays below the count has one
    token for every separator before the last character of the text, and
    one for the last character; the empty text has none. *)
Theorem split_token_count_with_empty_entries
        (str : narrow) (separators : vector ascii) (count : N) (l : vector narrow) :
  strings.split str separators count none = Some l ->
  (size l < count)%N ->
  List.length l
  = (separators_before_last (strings.effective_separators separators) str
     + match str with [] => 0 | _ :: _ => 1 end)%nat.
Proof.
  unfold strings.split.
  destruct (N.eqb_spec count 0) as [-> | H0]; [intros _ H; lia|].
  destruct (N.eqb_spec count 1) as [-> | H1].
  { intros [= <-] H. unfold size in H. simpl in H. lia. }
  intros Hrun Hl.
  now rewrite (@split_loop_closes str (strings.effective_separators separators)
                 count none eq_refl str 0 [] [] l).
Qed.

Lemma split_token_count_with_empty_entries_witness :
  List.length [lit "a"; lit ""; lit "aa"; lit ""]
  = (separators_before_last (strings.effective_separators (lit "-_")) (lit "a-_aa-_")
     + 1)%nat.
Proof.
  apply (@split_token_count_with_empty_entries (lit "a-_aa-_") (lit "-_") size_t.max).
  - vm_compute. reflexivity.
  - vm_compute. reflexivity.
Defined.

(** ** The order of [compare] *)

Section CompareOrder.
Context {Char : Type}.
Variable to_int : Char -> N.

Lemma basic_compare_refl (a : list Char) : basic_compare to_int a a = 0%Z.
Proof.
  induction a as [|x a IH]; simpl; [reflexivity|].
  now rewrite N.compare_refl.
Qed.

Lemma basic_compare_zero (a b : list Char) :
  basic_compare to_int a b = 0%Z <-> map to_int a = map to_int b.
Proof.
  revert b; induction a as [|x a IH]; intros [|y b]; simpl;
    try (split; [discriminate | discriminate]); [tauto|].
  destruct (N.compare_spec (to_int x) (to_int y)) as [Hxy | Hxy | Hxy].
  - rewrite IH, Hxy. split; [congruence | now intros [= ->]].
  - split; [discriminate | intros [= H _]; lia].
  - split; [discriminate | intros [= H _]; lia].
Qed.

Lemma basic_compare_trans_lt (a : list Char) :
  forall b c, (basic_compare to_int a b < 0)%Z -> (basic_compare to_int b c < 0)%Z ->
              (basic_compare to_int a c < 0)%Z.
Proof.
  induction a as [|x a IH]; intros [|y b] [|z c]; simpl; try lia.
  destruct (N.compare_spec (to_int x) (to_int y)),
           (N.compare_spec (to_int y) (to_int z)),
           (N.compare_spec (to_int x) (to_int z)); try lia; auto.
  apply IH.
Qed.

Lemma basic_compare_trans_eq (a b c : list Char) :
  basic_compare to_int a b = 0%Z -> basic_compare to_int b c = 0%Z ->
  basic_compare to_int a c = 0%Z.
Proof. rewrite !basic_compare_zero. congruence. Qed.

Lemma basic_compare_prefix (a b : list Char) :
  b <> [] -> (basic_compare to_int a (a ++ b) < 0)%Z.
Proof.
  intros Hb. induction a as [|x a IH]; simpl.
  - destruct b; [contradiction | lia].
  - now rewrite N.compare_refl.
Qed.

Variable to_lower : list Char -> list Char.

(** X17: [compare] orders the strings, with the case or without it: a string
    equals itself, "less" and "equal" are transitive, and with the case
    honoured a string sorts before every string it is a proper prefix
    of. *)
Theorem compare_is_an_order (a b c : list Char) (ignore_case : bool) :
  strings.compare to_int to_lower a a ignore_case = 0%Z
  /\ ((strings.compare to_int to_lower a b ignore_case < 0)%Z ->
      (strings.compare to_int to_lower b c ignore_case < 0)%Z ->
      (strings.compare to_int to_lower a c ignore_case < 0)%Z)
  /\ (strings.compare to_int to_lower a b ignore_case = 0%Z ->
      strings.compare to_int to_lower b c ignore_case = 0%Z ->
      strings.compare to_int to_lower a c ignore_case = 0%Z)
  /\ (b <> [] -> (strings.compare to_int to_lower a (a ++ b) false < 0)%Z).
Proof.
  unfold strings.compare.
  destruct ignore_case;
    (split; [apply basic_compare_refl|];
     split; [apply basic_compare_trans_lt|];
     split; [apply basic_compare_trans_eq | apply basic_compare_prefix]).
Qed.

Hypothesis to_int_injective : forall x y, to_int x = to_int y -> x = y.

Lemma map_to_int_injective (a b : list Char) : map to_int a = map to_int b -> a = b.
Proof.
  revert b; induction a as [|x a IH]; intros [|y b]; simpl; try discriminate; auto.
  intros [= Hxy Hab]. f_equal; auto.
Qed.

Lemma basic_compare_equal (a b : list Char) :
  basic_compare to_int a b = 0%Z <-> a = b.
Proof.
  rewrite basic_compare_zero. split; [apply map_to_int_injective | congruence].
Qed.

(** X18: [compare] answers zero for equal strings only; with the case ignored,
    for the strings with one and the same lower-case form. *)
Theorem compare_zero_means_equal (a b : list Char) :
  (strings.compare to_int to_lower a b false = 0%Z <-> a = b)
  /\ (strings.compare to_int to_lower a b true = 0%Z <-> to_lower a = to_lower b).
Proof. unfold strings.compare. split; apply basic_compare_equal. Qed.
End CompareOrder.

Lemma compare_zero_means_equal_witness :
  let to_lower := strings.to_lower (classic true) in
  (strings.compare N_of_ascii to_lower (lit "ABC") (lit "abc") false = 0%Z
   <-> lit "ABC" = lit "abc")
  /\ (strings.compare N_of_ascii to_lower (lit "ABC") (lit "abc") true = 0%Z
      <-> to_lower (lit "ABC") = to_lower (lit "abc")).
Proof.
  intros to_lower.
  apply (@compare_zero_means_equal ascii N_of_ascii to_lower N_of_ascii_injective).
Defined.

(** ** The substrings of [compare] *)

Lemma firstn_min_length {A : Type} (n : nat) (l : list A) :
  firstn (Nat.min n (List.length l)) l = firstn n l.
Proof.
  destruct (Nat.le_ge_cases n (List.length l)) as [H | H].
  - now rewrite Nat.min_l.
  - rewrite Nat.min_r, firstn_all, firstn_all2; auto.
Qed.


Lemma substr_in_range {Char : Type} (s : list Char) (pos n : N) :
  (pos <= size s)%N ->
  substr s pos n = Some (firstn (N.to_nat n) (skipn (N.to_nat pos) s)).
Proof.
  intros Hpos. unfold substr. destruct (N.ltb_spec (size s) pos); [lia|].
  f_equal. rewrite <- (firstn_min_length (N.to_nat n)), length_skipn.
  f_equal. unfold size. lia.
Qed.

Section CompareSubstrings.
Context {Char : Type}.
Variable to_int : Char -> N.
Variable to_lower : list Char -> list Char.




Hypothesis to_int_injective : forall x y, to_int x = to_int y -> x = y.

Lemma firstn_is_value (str value : list Char) :
  firstn (List.length value) str = value <-> exists back, str = value ++ back.
Proof.
  split.
  - intros H. exists (skipn (List.length value) str).
    now rewrite <- H at 1; rewrite firstn_skipn.
  - intros [back ->]. rewrite firstn_app, Nat.sub_diag, firstn_all. simpl.
    apply app_nil_r.
Qed.

Lemma skipn_is_value (str value : list Char) :
  (List.length value <= List.length str)%nat ->
  skipn (List.length str - List.length value) str = value
  <-> exists front, str = front ++ value.
Proof.
  intros Hlen. split.
  - intros H. exists (firstn (List.length str - List.length value) str).
    now rewrite <- H at 2; rewrite firstn_skipn.
  - intros [front ->]. rewrite length_app, Nat.add_sub, skipn_app, Nat.sub_diag, skipn_all.
    reflexivity.
Qed.

(** X20: Over the first [value.size()] characters it is the prefix test, the
    one [starts_width] makes. *)
Theorem compare_substrings_is_the_prefix_test (str value : list Char) :
  strings.compare_substrings to_int to_lower str 0 value 0 (size value) false = Some 0%Z
  <-> strings.starts_width to_int to_lower str value false = true.
Proof.
  unfold strings.compare_substrings.
  rewrite !substr_in_range by lia. simpl.
  unfold size at 1 2. rewrite Nat2N.id, firstn_all.
  transitivity (exists back, str = value ++ back).
  - rewrite <- firstn_is_value, <- (basic_compare_equal to_int to_int_injective).
    split; [now intros [= ->] | now intros ->].
  - rewrite <- (match_at_prefix to_int to_int_injective).
    unfold strings.starts_width, find. rewrite N.eqb_eq.
    destruct str as [|c str]; cbn [find_from].
    + destruct (match_at to_int [] value); simpl; [tauto|].
      split; [discriminate | unfold size_t.max, size_t.modulus; simpl; discriminate].
    + destruct (match_at to_int (c :: str) value) eqn:E; simpl; [tauto|].
      split; [discriminate|].
      destruct (find_from to_int 1 str value) as [p|] eqn:F; simpl.
      * apply find_from_found in F. lia.
      * unfold size_t.max, size_t.modulus. simpl. discriminate.
Qed.

(** X21: Over the last [value.size()] characters it is the suffix test. *)
Theorem compare_substrings_is_the_suffix_test (str value : list Char) :
  (size value <= size str)%N ->
  strings.compare_substrings to_int to_lower
    str (size str - size value) value 0 (size value) false = Some 0%Z
  <-> is_suffix value str.
Proof.
  intros Hlen. unfold strings.compare_substrings, is_suffix.
  rewrite !substr_in_range by lia. simpl.
  unfold size in *.
  replace (N.to_nat (N.of_nat (List.length str) - N.of_nat (List.length value)))
    with (List.length str - List.length value)%nat by lia.
  rewrite Nat2N.id, firstn_all.
  rewrite (firstn_all2 (n := List.length value))
    by (rewrite length_skipn; lia).
  rewrite <- skipn_is_value by lia.
  rewrite <- (basic_compare_equal to_int to_int_injective).
  split; [now intros [= ->] | now intros ->].
Qed.
End CompareSubstrings.

Lemma compare_substrings_is_the_prefix_test_witness :
  let to_lower := strings.to_lower (classic true) in
  strings.compare_substrings N_of_ascii to_lower
    (lit "Hello") 0 (lit "He") 0 (size (lit "He")) false = Some 0%Z
  <-> strings.starts_width N_of_ascii to_lower (lit "Hello") (lit "He") false = true.
Proof.
  intros to_lower.
  apply (@compare_substrings_is_the_prefix_test ascii N_of_ascii to_lower
           N_of_ascii_injective).
Defined.

Lemma compare_substrings_is_the_suffix_test_witness :
  let to_lower := strings.to_lower (classic true) in
  strings.compare_substrings N_of_ascii to_lower
    (lit "abc") (size (lit "abc") - size (lit "c")) (lit "c") 0 (size (lit "c")) false
  = Some 0%Z
  <-> is_suffix (lit "c") (lit "abc").
Proof.
  intros to_lower.
  apply (@compare_substrings_is_the_suffix_test ascii N_of_ascii to_lower
           N_of_ascii_injective).
  vm_compute. discriminate.
Defined.

(** ** How the tests relate *)

Section Searches.
Context {Char : Type}.
Variable to_int : Char -> N.

Lemma find_zero (s value : list Char) :
  find to_int s value = 0%N <-> match_at to_int s value = true.
Proof.
  unfold find. destruct s as [|c s]; cbn [find_from].
  - destruct (match_at to_int [] value); simpl; [tauto|].
    split; [unfold size_t.max, size_t.modulus; simpl; discriminate | discriminate].
  - destruct (match_at to_int (c :: s) value) eqn:E; simpl; [tauto|].
    split; [|discriminate].
    destruct (find_from to_int 1 s value) as [p|] eqn:F; simpl.
    + apply find_from_found in F. lia.
    + unfold size_t.max, size_t.modulus. simpl. discriminate.
Qed.

Lemma contains_found (str value : list Char) :
  (size str < size_t.max)%N ->
  strings.contains to_int str value = true <-> find_from to_int 0 str value <> None.
Proof.
  intros Hsize. unfold strings.contains, find. rewrite negb_true_iff, N.eqb_neq.
  destruct (find_from to_int 0 str value) as [p|] eqn:E; simpl.
  - apply find_from_found in E. unfold size in Hsize.
    split; [discriminate | lia].
  - tauto.
Qed.

Lemma rfind_from_found (value s : list Char) :
  forall pos p, rfind_from to_int pos s value = Some p ->
                find_from to_int pos s value <> None.
Proof.
  induction s as [|c s IH]; intros pos p; cbn [rfind_from find_from].
  - destruct (match_at to_int [] value); discriminate.
  - destruct (match_at to_int (c :: s) value); [discriminate|].
    destruct (rfind_from to_int (S pos) s value) eqn:E; [|discriminate].
    intros _. eapply IH, E.
Qed.

Lemma match_at_short (value s : list Char) :
  (List.length s < List.length value)%nat -> match_at to_int s value = false.
Proof.
  revert s; induction value as [|v value IH]; intros [|c s]; simpl; try lia; auto.
  intros H. rewrite IH by lia. apply andb_false_r.
Qed.

Lemma match_at_refl (s : list Char) : match_at to_int s s = true.
Proof.
  induction s as [|c s IH]; simpl; [reflexivity|].
  unfold traits_eq. now rewrite N.eqb_refl.
Qed.

Lemma rfind_from_short (value s : list Char) :
  forall pos, (List.length s < List.length value)%nat ->
              rfind_from to_int pos s value = None.
Proof.
  induction s as [|c s IH]; intros pos H; cbn [rfind_from].
  - now rewrite match_at_short.
  - rewrite IH by (simpl in H; lia). now rewrite match_at_short.
Qed.

Lemma rfind_from_empty_value (s : list Char) :
  forall pos, rfind_from to_int pos s [] = Some (pos + List.length s)%nat.
Proof.
  induction s as [|c s IH]; intros pos; cbn [rfind_from].
  - simpl. f_equal. lia.
  - rewrite IH. f_equal. simpl. lia.
Qed.

Lemma rfind_from_itself (s : list Char) : rfind_from to_int 0 s s = Some 0%nat.
Proof.
  destruct s as [|c s]; [reflexivity|].
  cbn [rfind_from]. rewrite rfind_from_short by (simpl; lia).
  now rewrite match_at_refl.
Qed.

Hypothesis to_int_injective : forall x y, to_int x = to_int y -> x = y.

Lemma find_from_occurrence (str value : list Char) :
  find_from to_int 0 str value <> None
  <-> exists front back, str = front ++ value ++ back.
Proof.
  destruct (find_from to_int 0 str value) as [p|] eqn:E.
  - apply find_from_found in E as [Hp Hm]. rewrite Nat.sub_0_r in Hm.
    apply (match_at_prefix to_int to_int_injective) in Hm as [back Hback].
    split; [intros _ | discriminate].
    exists (firstn p str), back. now rewrite <- Hback, firstn_skipn.
  - split; [congruence|]. intros [front [back ->]].
    pose proof (find_from_not_found _ _ _ _ E (List.length front)) as H.
    rewrite (occurrence_at to_int to_int_injective) in H. discriminate.
Qed.

(** X24: [contains] is reflexive and transitive, and what is contained is not
    longer than what contains it. *)
Theorem contains_is_a_preorder (a b c : list Char) :
  (size a < size_t.max)%N -> (size b < size_t.max)%N ->
  strings.contains to_int a a = true
  /\ (strings.contains to_int a b = true -> (size b <= size a)%N)
  /\ (strings.contains to_int a b = true -> strings.contains to_int b c = true ->
      strings.contains to_int a c = true).
Proof.
  intros Ha Hb. rewrite !contains_found, !find_from_occurrence by auto.
  split; [|split].
  - exists [], []. now rewrite app_nil_r.
  - intros [front [back ->]]. unfold size. rewrite !length_app. lia.
  - intros [front [back ->]] [front' [back' ->]].
    exists (front ++ front'), (back' ++ back). now rewrite <- !app_assoc.
Qed.

End Searches.

Section Tests.
Context {Char : Type}.
Variable to_int : Char -> N.
Variable to_lower : list Char -> list Char.

(** [ends_width] at its edges: a string ends with the empty string, or with
    itself, only if it is empty. *)
Lemma ends_width_of_empty_value_and_of_itself (str : list Char) :
  (size str < size_t.max)%N ->
  (strings.ends_width to_int to_lower str [] false = true <-> str = [])
  /\ (strings.ends_width to_int to_lower str str false = true <-> str = []).
Proof.
  intros Hsize. split.
  - rewrite ends_width_last_occurrence by (auto; reflexivity).
    rewrite rfind_from_empty_value. simpl.
    split; [intros [= H]; now destruct str | now intros ->].
  - rewrite ends_width_last_occurrence by auto.
    rewrite rfind_from_itself.
    split; [intros [= H]; now destruct str | now intros ->].
Qed.

(** [starts_width] at its edges: every string starts with the empty string,
    and the empty string starts with nothing else. *)
Lemma starts_width_of_empty_strings (str value : list Char) :
  strings.starts_width to_int to_lower str [] false = true
  /\ (strings.starts_width to_int to_lower [] value false = true <-> value = []).
Proof.
  unfold strings.starts_width. rewrite !N.eqb_eq, !find_zero. split.
  - now destruct str.
  - destruct value; simpl; split; congruence.
Qed.

(** X23: What [starts_width] or [ends_width] accepts, [contains] finds. *)
Theorem contains_after_starts_width_or_ends_width (str value : list Char) :
  (size str < size_t.max)%N -> (size value < size_t.max)%N ->
  (strings.starts_width to_int to_lower str value false = true ->
   strings.contains to_int str value = true)
  /\ (strings.ends_width to_int to_lower str value false = true ->
      strings.contains to_int str value = true).
Proof.
  intros Hstr Hvalue. split.
  - unfold strings.starts_width, strings.contains.
    rewrite N.eqb_eq. intros ->. reflexivity.
  - rewrite ends_width_last_occurrence, contains_found by auto.
    apply rfind_from_found.
Qed.

(** X22: The prefix and the suffix test at the empty string: every string starts
    with the empty string and the empty string with nothing else; but a
    string ends with the empty string, or with itself, only if it is
    empty. *)
Theorem starts_width_and_ends_width_at_empty_strings (str value : list Char) :
  (size str < size_t.max)%N ->
  strings.starts_width to_int to_lower str [] false = true
  /\ (strings.starts_width to_int to_lower [] value false = true <-> value = [])
  /\ (strings.ends_width to_int to_lower str [] false = true <-> str = [])
  /\ (strings.ends_width to_int to_lower str str false = true <-> str = []).
Proof.
  intros Hsize.
  destruct (starts_width_of_empty_strings str value) as [H1 H2].
  destruct (ends_width_of_empty_value_and_of_itself str Hsize) as [H3 H4].
  auto.
Qed.

Hypothesis to_int_injective : forall x y, to_int x = to_int y -> x = y.

(** With the case ignored, [starts_width] tests the lower-case forms. *)
Lemma starts_width_ignoring_case (str value : list Char) :
  strings.starts_width to_int to_lower str value true = true
  <-> exists back, to_lower str = to_lower value ++ back.
Proof.
  unfold strings.starts_width.
  now rewrite N.eqb_eq, find_zero, (match_at_prefix to_int to_int_injective).
Qed.
End Tests.

Lemma starts_width_of_mapped_strings
      {Char : Type} (to_int : Char -> N) (f : Char -> Char) (str value : list Char) :
  (forall x y, to_int x = to_int y -> x = y) ->
  strings.starts_width to_int (map f) str value false = true ->
  strings.starts_width to_int (map f) str value true = true.
Proof.
  intros Hinj. rewrite (starts_width_ignoring_case to_int (map f) Hinj).
  unfold strings.starts_width.
  rewrite N.eqb_eq, find_zero, (match_at_prefix to_int Hinj).
  intros [back ->]. exists (map f back). apply map_app.
Qed.

Lemma starts_width_to_lower_ext
      {Char : Type} (to_int : Char -> N) (g h : list Char -> list Char)
      (str value : list Char) (ignore_case : bool) :
  (forall s, g s = h s) ->
  strings.starts_width to_int g str value ignore_case
  = strings.starts_width to_int h str value ignore_case.
Proof. intros H. unfold strings.starts_width. now rewrite !H. Qed.

(** X25: Ignoring the case only lets [starts_width] accept more: a prefix with
    the case honoured is a prefix without it, for narrow strings and for
    the 16-bit and 32-bit ones. *)
Theorem starts_width_accepts_more_without_case (e : environment) :
  (forall str value : narrow,
      strings.starts_width N_of_ascii (strings.to_lower e) str value false = true ->
      strings.starts_width N_of_ascii (strings.to_lower e) str value true = true)
  /\ (forall str value : list N,
         strings.starts_width (fun c => c) (strings.to_lower_char16 e) str value false = true ->
         strings.starts_width (fun c => c) (strings.to_lower_char16 e) str value true = true)
  /\ (forall str value : list N,
         strings.starts_width (fun c => c) (strings.to_lower_char32 e) str value false = true ->
         strings.starts_width (fun c => c) (strings.to_lower_char32 e) str value true = true).
Proof.
  unfold strings.to_lower_char16, strings.to_lower_char32, strings.to_lower_wide,
    strings.to_lower.
  repeat split; intros str value;
    rewrite !(starts_width_to_lower_ext _ _ _ str value _
                (for_each_push_back_map _));
    apply starts_width_of_mapped_strings; auto using N_of_ascii_injective.
Qed.

(** ** The wide overloads and the signedness of [char] *)

Lemma to_char_of_low_byte (c : N) : (c <= 255)%N -> N_of_ascii (to_char c) = c.
Proof.
  intros H. unfold to_char. rewrite N.mod_small by lia.
  apply N_ascii_embedding. lia.
Qed.

Lemma of_char_unsigned (bits : N) (e : environment) (a : ascii) :
  char_is_signed e = false -> (8 <= bits)%N -> of_char bits e a = N_of_ascii a.
Proof.
  intros Hsigned Hbits. unfold of_char, char_value. rewrite Hsigned. cbn [andb].
  pose proof (N_ascii_bounded a) as Ha.
  assert (2 ^ 8 <= 2 ^ Z.of_N bits)%Z by (apply Z.pow_le_mono_r; lia).
  rewrite Z.mod_small by lia. apply N2Z.id.
Qed.

Lemma of_char_sign_extends (bits : N) (e : environment) (a : ascii) :
  char_is_signed e = true -> (8 <= bits)%N -> (128 <= N_of_ascii a)%N ->
  of_char bits e a = (N_of_ascii a + (2 ^ bits - 256))%N.
Proof.
  intros Hsigned Hbits Ha. unfold of_char, char_value. rewrite Hsigned. cbn [andb].
  pose proof (N_ascii_bounded a) as Hbound.
  destruct (Z.leb_spec 128 (Z.of_N (N_of_ascii a))); [|lia].
  assert (256 <= 2 ^ bits)%N as Hpow
      by (change 256%N with (2 ^ 8)%N; apply N.pow_le_mono_r; lia).
  assert (Z.of_N (2 ^ bits) = 2 ^ Z.of_N bits)%Z as HZ
      by (rewrite N2Z.inj_pow; reflexivity).
  rewrite <- HZ.
  rewrite <- (Z.mod_add _ 1) by lia.
  rewrite Z.mod_small by lia.
  apply N2Z.inj. rewrite Z2N.id by lia.
  rewrite N2Z.inj_add, N2Z.inj_sub by lia.
  change (Z.of_N 256) with 256%Z. lia.
Qed.

(** X26: Where [char] is unsigned, the wide overloads lower-case a string of
    code units up to 255 as the narrow [to_lower] does the same bytes. *)
Theorem wide_to_lower_of_bytes_with_unsigned_char (e : environment) (s : list N) :
  char_is_signed e = false ->
  Forall (fun c => (c <= 255)%N) s ->
  strings.to_lower_char16 e s = map N_of_ascii (strings.to_lower e (map to_char s))
  /\ strings.to_lower_char32 e s = map N_of_ascii (strings.to_lower e (map to_char s)).
Proof.
  intros Hsigned Hs.
  unfold strings.to_lower_char16, strings.to_lower_char32, strings.to_lower_wide,
    strings.to_lower.
  rewrite !for_each_push_back_map, !map_map.
  split; apply map_ext_Forall; (eapply Forall_impl; [|exact Hs]); cbv beta;
    intros c Hc; destruct (N.leb_spec c 255); try lia;
    apply of_char_unsigned; auto; lia.
Qed.

Lemma wide_to_lower_of_bytes_with_unsigned_char_witness :
  strings.to_lower_char16 (classic false) [72; 233]%N
  = map N_of_ascii (strings.to_lower (classic false) (map to_char [72; 233]%N))
  /\ strings.to_lower_char32 (classic false) [72; 233]%N
     = map N_of_ascii (strings.to_lower (classic false) (map to_char [72; 233]%N)).
Proof.
  apply (@wide_to_lower_of_bytes_with_unsigned_char (classic false) [72; 233]%N).
  - reflexivity.
  - repeat constructor; vm_compute; discriminate.
Defined.

(** X27: Where [char] is signed, a code unit from 128 to 255 that the table
    sends to a byte from 128 on comes back sign-extended: the overload for
    [char16_t] returns that byte plus 0xFF00, the one for [char32_t] that
    byte plus 0xFFFFFF00. *)
Theorem wide_to_lower_sign_extends (e : environment) (s : list N) :
  char_is_signed e = true ->
  Forall (fun c => (c <= 255)%N /\ (128 <= N_of_ascii (tolower e (to_char c)))%N) s ->
  strings.to_lower_char16 e s
  = map (fun c => N_of_ascii (tolower e (to_char c)) + 65280)%N s
  /\ strings.to_lower_char32 e s
     = map (fun c => N_of_ascii (tolower e (to_char c)) + 4294967040)%N s.
Proof.
  intros Hsigned Hs.
  unfold strings.to_lower_char16, strings.to_lower_char32, strings.to_lower_wide.
  rewrite !for_each_push_back_map.
  split; apply map_ext_Forall; (eapply Forall_impl; [|exact Hs]); cbv beta;
    intros c [Hc Hhigh]; destruct (N.leb_spec c 255); try lia;
    rewrite of_char_sign_extends by (auto; lia); reflexivity.
Qed.

Lemma wide_to_lower_sign_extends_witness :
  strings.to_lower_char16 (classic true) [233]%N
  = map (fun c => N_of_ascii (tolower (classic true) (to_char c)) + 65280)%N [233]%N
  /\ strings.to_lower_char32 (classic true) [233]%N
     = map (fun c => N_of_ascii (tolower (classic true) (to_char c)) + 4294967040)%N
           [233]%N.
Proof.
  apply (@wide_to_lower_sign_extends (classic true) [233]%N).
  - reflexivity.
  - repeat constructor; vm_compute; discriminate.
Defined.

(** ** Case changes under the case-insensitive [compare] *)



(** ** The overloads for C strings *)

Lemma c_str_chars_has_no_nul (p : narrow) : ~ In zero (strings.c_str_chars p).
Proof.
  induction p as [|c p IH]; simpl; [tauto|].
  destruct (Ascii.eqb_spec c zero) as [-> | Hc]; simpl; [tauto|].
  intros [H | H]; [congruence | tauto].
Qed.

(** X29: [split] of a C string always returns: the string built from a C string
    holds no NUL, so the truncation never reads past its end.  On a text
    without NUL the overload is the [split] of that text. *)
Theorem split_of_c_string_returns
        (str : narrow) (separators : vector ascii) (count : N)
        (options : string_split_options) :
  (exists l, strings.split_c_str str separators count options = Some l)
  /\ (~ In zero str ->
      strings.split_c_str str separators count options
      = strings.split str separators count options).
Proof.
  unfold strings.split_c_str. split.
  - unfold strings.split.
    destruct (count =? 0)%N; [eauto|].
    destruct (count =? 1)%N; [eauto|].
    apply split_loop_returns; auto using c_str_chars_has_no_nul.
  - intros Hnul. now rewrite c_str_chars_without_nul.
Qed.

Lemma split_of_c_string_returns_witness :
  (exists l, strings.split_c_str [zero; "-"; "-"]%char (lit "-") 2 none = Some l)
  /\ strings.split_c_str (lit "a-b") (lit "-") 2 none
     = strings.split (lit "a-b") (lit "-") 2 none.
Proof.
  pose proof (@split_of_c_string_returns [zero; "-"; "-"]%char (lit "-") 2 none) as [H _].
  pose proof (@split_of_c_string_returns (lit "a-b") (lit "-") 2 none) as [_ H'].
  split; [exact H|]. apply H'. vm_compute. intuition discriminate.
Defined.

(** ** [concat] *)

Lemma concat_from (args : list strings.streamed) (ss : narrow) :
  fold_left strings.insert args ss = ss ++ strings.concat args.
Proof.
  unfold strings.concat. revert ss.
  induction args as [|arg args IH]; intros ss; simpl; [now rewrite app_nil_r|].
  rewrite IH, (IH (strings.insert [] arg)).
  destruct arg; simpl; now rewrite <- app_assoc.
Qed.

Lemma concat_strings (l : vector narrow) :
  strings.concat (map strings.a_string l) = List.concat l.
Proof.
  induction l as [|s l IH]; [reflexivity|].
  unfold strings.concat in *. simpl. rewrite concat_from.
  unfold strings.concat. now rewrite IH.
Qed.

(** [concat] inserts its arguments in their order: the result for two
    argument lists in a row is the two results in a row, strings are put
    end to end, a C string gives its characters before the NUL. *)
Lemma concat_joins_its_arguments
        (args args' : list strings.streamed) (l : vector narrow) (p : narrow) :
  strings.concat (args ++ args') = strings.concat args ++ strings.concat args'
  /\ strings.concat (map strings.a_string l) = List.concat l
  /\ strings.concat (args ++ [strings.a_c_string p])
     = strings.concat args ++ strings.c_str_chars p.
Proof.
  split; [|split].
  - unfold strings.concat at 1. rewrite fold_left_app.
    fold (strings.concat args). apply concat_from.
  - apply concat_strings.
  - unfold strings.concat at 1. rewrite fold_left_app. reflexivity.
Qed.

(** X30: The tokens of a split that stays below the count, handed to [concat],
    give back the text without its separators. *)
Theorem concat_of_split_tokens
        (str : narrow) (separators : vector ascii) (count : N)
        (options : string_split_options) (l : vector narrow) :
  strings.split str separators count options = Some l ->
  (size l < count)%N ->
  strings.concat (map strings.a_string l)
  = without_separators (strings.effective_separators separators) str.
Proof.
  unfold strings.split.
  destruct (N.eqb_spec count 0) as [-> | H0]; [intros _ H; lia|].
  destruct (N.eqb_spec count 1) as [-> | H1].
  { intros [= <-] H. unfold size in H. simpl in H. lia. }
  intros Hrun Hl. rewrite concat_strings.
  now rewrite (@split_loop_contents str (strings.effective_separators separators)
                 count options str 0 [] [] l).
Qed.

Lemma concat_of_split_tokens_witness :
  strings.concat (map strings.a_string [lit "hello"; lit "world"])
  = without_separators (strings.effective_separators []) (lit "  hello   world  ").
Proof.
  apply (@concat_of_split_tokens (lit "  hello   world  ") [] size_t.max
           remove_empty_entries).
  - vm_compute. reflexivity.
  - vm_compute. reflexivity.
Defined.

(** ** Instances of the tests *)

Lemma starts_width_and_ends_width_at_empty_strings_witness :
  let to_lower := strings.to_lower (classic true) in
  strings.starts_width N_of_ascii to_lower (lit "abc") [] false = true
  /\ (strings.starts_width N_of_ascii to_lower [] (lit "a") false = true <-> lit "a" = [])
  /\ (strings.ends_width N_of_ascii to_lower (lit "abc") [] false = true <-> lit "abc" = [])
  /\ (strings.ends_width N_of_ascii to_lower (lit "abc") (lit "abc") false = true
      <-> lit "abc" = []).
Proof.
  intros to_lower.
  apply (@starts_width_and_ends_width_at_empty_strings ascii N_of_ascii to_lower
           (lit "abc") (lit "a")).
  vm_compute. reflexivity.
Defined.

Lemma contains_after_starts_width_or_ends_width_witness :
  let to_lower := strings.to_lower (classic true) in
  (strings.starts_width N_of_ascii to_lower (lit "abab") (lit "ab") false = true ->
   strings.contains N_of_ascii (lit "abab") (lit "ab") = true)
  /\ (strings.ends_width N_of_ascii to_lower (lit "abab") (lit "ab") false = true ->
      strings.contains N_of_ascii (lit "abab") (lit "ab") = true).
Proof.
  intros to_lower.
  apply (@contains_after_starts_width_or_ends_width ascii N_of_ascii to_lower
           (lit "abab") (lit "ab")); vm_compute; reflexivity.
Defined.

Lemma contains_is_a_preorder_witness :
  strings.contains N_of_ascii (lit "hello") (lit "hello") = true
  /\ (strings.contains N_of_ascii (lit "hello") (lit "ell") = true ->
      (size (lit "ell") <= size (lit "hello"))%N)
  /\ (strings.contains N_of_ascii (lit "hello") (lit "ell") = true ->
      strings.contains N_of_ascii (lit "ell") (lit "l") = true ->
      strings.contains N_of_ascii (lit "hello") (lit "l") = true).
Proof.
  apply (@contains_is_a_preorder ascii N_of_ascii N_of_ascii_injective
           (lit "hello") (lit "ell") (lit "l")); vm_compute; reflexivity.
Defined.
